(** * Charybdis layer definitions: [boards/shields/charybdis/charybdis_layers.h]

    The header is a list of preprocessor directives: one [#pragma once] and
    seven object-like [#define]s whose replacement lists are integer
    literals.  It has no functions of its own; what it does is decided by the
    C preprocessor that reads it.  The development therefore has two layers:

    - the header, transcribed directive by directive ([charybdis_layers_h]),
      together with the seven constants it introduces ([BASE] .. [SNIPING]);
    - the part of the C preprocessor the header exercises (C11 6.10, as the
      GNU preprocessor that builds the keymap implements it): a macro table,
      [#define] / [#undef], [#pragma once] inclusion guards, object-like
      macro replacement with rescanning, and the evaluation of an
      integer-literal initialiser of a file-scope [int]. *)

From Stdlib Require Import ZArith Lia Ascii String.
From stdpp Require Import gmap strings list fin_maps.

Local Open Scope Z_scope.
Local Open Scope string_scope.
Local Open Scope list_scope.

(* ===================================================================== *)
(** ** Preprocessing tokens and directives *)
(* ===================================================================== *)

(** The preprocessing tokens that can occur in a replacement list or in an
    initialiser (C11 6.4): pp-numbers, identifiers and punctuators, each
    with its spelling. *)
Inductive pp_token : Type :=
  | PPNumber (spelling : string)
  | PPIdent (name : string)
  | PPPunct (spelling : string).

#[global] Instance pp_token_eq_dec : EqDecision pp_token.
Proof. solve_decision. Defined.

(** The directives of the model.  The header only uses the first two; [Undef]
    is there so that "the file removes no definition" is a statement about
    the file and not about the type. *)
Inductive directive : Type :=
  | PragmaOnce
  | Define (name : string) (body : list pp_token)
  | Undef (name : string).

#[global] Instance directive_eq_dec : EqDecision directive.
Proof. solve_decision. Defined.

(** A source file: the path [#include] resolves it to, and its directives
    (comments and blank lines are gone after translation phase 3). *)
Record source_file : Type := SourceFile {
  path : string;
  lines : list directive
}.

#[global] Instance source_file_eq_dec : EqDecision source_file.
Proof. solve_decision. Defined.

(* ===================================================================== *)
(** ** The header *)
(* ===================================================================== *)

(** Lines 9 and 12-18 of [charybdis_layers.h], in order. *)
Definition charybdis_layers_h : list directive :=
  [ PragmaOnce;
    Define "BASE"    [PPNumber "0"];
    Define "POINTER" [PPNumber "1"];
    Define "LOWER"   [PPNumber "2"];
    Define "RAISE"   [PPNumber "3"];
    Define "SYMBOLS" [PPNumber "4"];
    Define "SCROLL"  [PPNumber "5"];
    Define "SNIPING" [PPNumber "6"] ].

Definition charybdis_layers_file : source_file :=
  SourceFile "boards/shields/charybdis/charybdis_layers.h" charybdis_layers_h.

(** The seven constants as a keymap sees them once the names are replaced. *)
Definition BASE    : Z := 0.
Definition POINTER : Z := 1.
Definition LOWER   : Z := 2.
Definition RAISE   : Z := 3.
Definition SYMBOLS : Z := 4.
Definition SCROLL  : Z := 5.
Definition SNIPING : Z := 6.

(** The seven names, in declaration order. *)
Definition layer_names : list string :=
  [ "BASE"; "POINTER"; "LOWER"; "RAISE"; "SYMBOLS"; "SCROLL"; "SNIPING" ].

(* ===================================================================== *)
(** ** Directive-level readings of a file *)
(* ===================================================================== *)

(** The [(name, replacement list)] pairs a directive list defines, in order. *)
Fixpoint definitions (ds : list directive) : list (string * list pp_token) :=
  match ds with
  | [] => []
  | Define n b :: ds' => (n, b) :: definitions ds'
  | _ :: ds' => definitions ds'
  end.

Definition defined_names (ds : list directive) : list string :=
  (definitions ds).*1.

(** The names a directive list removes with [#undef]. *)
Fixpoint undefined_names (ds : list directive) : list string :=
  match ds with
  | [] => []
  | Undef n :: ds' => n :: undefined_names ds'
  | _ :: ds' => undefined_names ds'
  end.

(** The names a directive touches, by definition or removal. *)
Definition directive_name (d : directive) : option string :=
  match d with
  | PragmaOnce => None
  | Define n _ => Some n
  | Undef n => Some n
  end.

Definition mentions (n : string) (ds : list directive) : Prop :=
  Some n ∈ directive_name <$> ds.

#[global] Instance mentions_dec (n : string) (ds : list directive)
  : Decision (mentions n ds).
Proof. unfold mentions. apply _. Defined.

(** A token sequence is closed when no identifier occurs in it: nothing in
    it can name a macro. *)
Definition is_ident (t : pp_token) : bool :=
  match t with
  | PPIdent _ => true
  | _ => false
  end.

Definition closed (ts : list pp_token) : Prop :=
  Forall (fun t => is_ident t = false) ts.

#[global] Instance closed_dec (ts : list pp_token) : Decision (closed ts).
Proof. unfold closed. apply _. Defined.

(* ===================================================================== *)
(** ** The preprocessor *)
(* ===================================================================== *)

(** The macro table and the set of files marked [#pragma once]. *)
Record pp_state : Type := PPState {
  macros : gmap string (list pp_token);
  once : gset string
}.

Definition pp_init : pp_state := PPState ∅ ∅.

(** Build-time diagnostics that stop the translation. *)
Inductive pp_error : Type :=
  | UndeclaredIdentifier (name : string)
  | Redeclared (var : string)
  | NotAnIntegerConstant
  | MalformedDeclaration.

Inductive result (A : Type) : Type :=
  | Ok (a : A)
  | Err (e : pp_error).
Arguments Ok {A} a.
Arguments Err {A} e.

Definition bind {A B : Type} (r : result A) (k : A -> result B) : result B :=
  match r with
  | Ok a => k a
  | Err e => Err e
  end.

Notation "'do' x <- r ; k" := (bind r (fun x => k))
  (at level 10, x name, r at level 100, k at level 200).

(** One directive of the file at [p].  A name defined again with the same
    replacement list is left as it is.  Defined again with another list it is
    redefined: the preprocessor warns (see [redefinition_warning]), goes on,
    and the new list replaces the old one.  [#undef] of a name that is not
    defined is ignored (C11 6.10.3.5p2). *)
Definition exec_directive (p : string) (d : directive) (st : pp_state)
  : result pp_state :=
  match d with
  | PragmaOnce => Ok (PPState (macros st) ({[ p ]} ∪ once st))
  | Define n b =>
      match macros st !! n with
      | None => Ok (PPState (<[n := b]> (macros st)) (once st))
      | Some b' =>
          if decide (b' = b) then Ok st
          else Ok (PPState (<[n := b]> (macros st)) (once st))
      end
  | Undef n => Ok (PPState (delete n (macros st)) (once st))
  end.

(** The names a directive is warned about: a [#define] of a name that has
    another replacement list at that point. *)
Definition redefinition_warning (d : directive) (st : pp_state) : list string :=
  match d with
  | Define n b =>
      match macros st !! n with
      | Some b' => if decide (b' = b) then [] else [n]
      | None => []
      end
  | _ => []
  end.

Fixpoint exec_directives (p : string) (ds : list directive) (st : pp_state)
  : result pp_state :=
  match ds with
  | [] => Ok st
  | d :: ds' => do st' <- exec_directive p d st; exec_directives p ds' st'
  end.

(** The redefinition warnings of a directive list, in the order they are
    given. *)
Fixpoint exec_warnings (p : string) (ds : list directive) (st : pp_state)
  : list string :=
  match ds with
  | [] => []
  | d :: ds' =>
      redefinition_warning d st
      ++ match exec_directive p d st with
         | Ok st' => exec_warnings p ds' st'
         | Err _ => []
         end
  end.

(** [#include] of [f]: skipped when [f] was marked [#pragma once] by an
    earlier inclusion, processed line by line otherwise. *)
Definition include_file (f : source_file) (st : pp_state) : result pp_state :=
  if decide (path f ∈ once st) then Ok st
  else exec_directives (path f) (lines f) st.

Definition include_warnings (f : source_file) (st : pp_state) : list string :=
  if decide (path f ∈ once st) then []
  else exec_warnings (path f) (lines f) st.


(** *** Macro replacement *)

(** Replacement of object-like macros with rescanning (C11 6.10.3.4).  A name
    being replaced is not replaced again inside its own expansion ([hide]);
    [fuel] bounds the nesting depth, which [hide] keeps below the size of the
    table. *)
Fixpoint expand_tokens (fuel : nat) (m : gmap string (list pp_token))
    (hide : list string) (ts : list pp_token) : list pp_token :=
  match fuel with
  | O => ts
  | S fuel' =>
      flat_map
        (fun t =>
           match t with
           | PPIdent n =>
               if decide (n ∈ hide) then [t]
               else match m !! n with
                    | Some body => expand_tokens fuel' m (n :: hide) body
                    | None => [t]
                    end
           | _ => [t]
           end)
        ts
  end.

Definition macro_expand (m : gmap string (list pp_token)) (ts : list pp_token)
  : list pp_token :=
  expand_tokens (S (size m)) m [] ts.

(** *** Integer constants *)

Definition digit_value (c : ascii) : option Z :=
  let n := Z.of_N (Ascii.N_of_ascii c) in
  if decide (48 <= n <= 57) then Some (n - 48) else None.

(** The value of a digit sequence in [base], most significant digit first;
    [None] on a character that is not a digit of that base. *)
Fixpoint digits_value (base : Z) (acc : Z) (s : string) : option Z :=
  match s with
  | EmptyString => Some acc
  | String c s' =>
      match digit_value c with
      | Some d =>
          if decide (d < base) then digits_value base (base * acc + d) s'
          else None
      | None => None
      end
  end.

(** A plain decimal digit sequence: not empty, digits only, no prefix, no
    suffix.  Its value is read in base ten. *)
Definition decimal_literal (s : string) : option Z :=
  match s with
  | EmptyString => None
  | _ => digits_value 10 0 s
  end.

(** The value C gives an unsuffixed integer constant (C11 6.4.4.1): a leading
    [0] makes it octal, any other digit decimal.  Hexadecimal constants and
    suffixes are outside the model. *)
Definition integer_literal (s : string) : option Z :=
  match s with
  | EmptyString => None
  | String "0"%char s' => digits_value 8 0 s'
  | _ => digits_value 10 0 s
  end.

(** The value of a fully replaced token sequence that is one integer
    constant. *)
Definition constant_value (ts : list pp_token) : option Z :=
  match ts with
  | [PPNumber s] => integer_literal s
  | _ => None
  end.

(** Reduction to a [w]-bit unsigned type, and to the 32-bit [int] of the
    target. *)
Definition wrap_unsigned (w : Z) (z : Z) : Z := z mod 2 ^ w.

Definition int_of_Z (z : Z) : Z := (z + 2 ^ 31) mod 2 ^ 32 - 2 ^ 31.

(** Reduction to a [w]-bit signed type in two's complement, the sign bit
    counted in the width: the values are [-2^(w-1) .. 2^(w-1) - 1]. *)
Definition wrap_signed (w : Z) (z : Z) : Z :=
  (z + 2 ^ (w - 1)) mod 2 ^ w - 2 ^ (w - 1).

(* ===================================================================== *)
(** ** Translation units that use the header *)
(* ===================================================================== *)

(** What a dependent file may contain, as far as the header is concerned:
    inclusions, directives of its own, and file-scope declarations
    [int var = init;]. *)
Inductive tu_item : Type :=
  | Include (f : source_file)
  | Line (d : directive)
  | IntDecl (var : string) (init : list pp_token).

Record tu_state : Type := TUState {
  pp : pp_state;
  consts : gmap string Z
}.

Definition tu_init : tu_state := TUState pp_init ∅.

(** The initialiser of a file-scope [int] after macro replacement: one
    integer constant, converted to [int].  An identifier that survives
    replacement names no macro, and nothing else is a constant here. *)
Definition eval_initializer (m : gmap string (list pp_token))
    (init : list pp_token) : result Z :=
  match macro_expand m init with
  | [PPNumber s] =>
      match integer_literal s with
      | Some z => Ok (int_of_Z z)
      | None => Err NotAnIntegerConstant
      end
  | PPIdent n :: _ => Err (UndeclaredIdentifier n)
  | _ => Err NotAnIntegerConstant
  end.

(** The declared name is a token like any other: it is replaced when it names
    a macro, and the declaration is well formed only if an identifier is left. *)
Definition declared_name (m : gmap string (list pp_token)) (var : string)
  : result string :=
  match macro_expand m [PPIdent var] with
  | [PPIdent y] => Ok y
  | _ => Err MalformedDeclaration
  end.

Definition exec_item (self : string) (it : tu_item) (st : tu_state)
  : result tu_state :=
  match it with
  | Include f =>
      do p <- include_file f (pp st); Ok (TUState p (consts st))
  | Line d =>
      do p <- exec_directive self d (pp st); Ok (TUState p (consts st))
  | IntDecl var init =>
      do y <- declared_name (macros (pp st)) var;
      match consts st !! y with
      | Some _ => Err (Redeclared y)
      | None =>
          do v <- eval_initializer (macros (pp st)) init;
          Ok (TUState (pp st) (<[y := v]> (consts st)))
      end
  end.

Fixpoint exec_items (self : string) (its : list tu_item) (st : tu_state)
  : result tu_state :=
  match its with
  | [] => Ok st
  | it :: its' => do st' <- exec_item self it st; exec_items self its' st'
  end.

(** Translation of the unit at path [self] from the empty state. *)
Definition translate (self : string) (its : list tu_item) : result tu_state :=
  exec_items self its tu_init.

(* ===================================================================== *)
(** ** The header's macro table *)
(* ===================================================================== *)

(** The state after the header is included once into an empty unit. *)
Definition header_state : result pp_state :=
  include_file charybdis_layers_file pp_init.

Definition macros_of (r : result pp_state) : gmap string (list pp_token) :=
  match r with
  | Ok st => macros st
  | Err _ => ∅
  end.

Definition header_macros : gmap string (list pp_token) :=
  macros_of header_state.

(** Name lookup over the header's definitions: the integer a layer name
    stands for, [None] for a name the header does not define. *)
Definition layer_index (n : string) : option Z :=
  match header_macros !! n with
  | Some _ => constant_value (macro_expand header_macros [PPIdent n])
  | None => None
  end.

(** A preprocessor state that does not contradict the header: each name the
    header defines is either free in it or already has the header's
    replacement list. *)
Definition agrees_with_header (st : pp_state) : Prop :=
  Forall (fun nb => macros st !! nb.1 = None \/ macros st !! nb.1 = Some nb.2)
         (definitions charybdis_layers_h).

#[global] Instance agrees_with_header_dec (st : pp_state)
  : Decision (agrees_with_header st).
Proof. unfold agrees_with_header. apply _. Defined.

(** A name of the header that a state defines in another way. *)
Definition conflicts (st : pp_state) (n : string) : Prop :=
  match header_macros !! n, macros st !! n with
  | Some b, Some b' => b' <> b
  | _, _ => False
  end.

#[global] Instance conflicts_dec (st : pp_state) (n : string)
  : Decision (conflicts st n).
Proof.
  unfold conflicts.
  destruct (header_macros !! n), (macros st !! n); apply _.
Defined.

(* ===================================================================== *)
(** ** Units that leave the header's names alone *)
(* ===================================================================== *)

(** An item that leaves the macro names [ns] alone: an inclusion of the
    header itself, an inclusion of a file none of whose directives names one
    of [ns], a directive of the unit that names none of them, or a
    declaration. *)
Definition quiet (ns : list string) (it : tu_item) : Prop :=
  match it with
  | Include f =>
      f = charybdis_layers_file
      \/ Forall (fun n => ~ mentions n (lines f)) ns
  | Line d => Forall (fun n => directive_name d <> Some n) ns
  | IntDecl _ _ => True
  end.

#[global] Instance quiet_dec (ns : list string) (it : tu_item)
  : Decision (quiet ns it).
Proof. destruct it; simpl; apply _. Defined.


(* ===================================================================== *)
(** ** Properties of the preprocessor *)
(* ===================================================================== *)

Section Preprocessor.
Implicit Types (p n : string) (d : directive) (ds : list directive).
Implicit Types (st : pp_state) (b : list pp_token).

Lemma bind_Ok {A B} (r : result A) (k : A -> result B) (y : B) :
  bind r k = Ok y -> exists x, r = Ok x /\ k x = Ok y.
Proof. destruct r as [x|e]; simpl; [eauto | discriminate]. Qed.

(** A directive whose name is not [n] leaves the entry of [n] alone. *)
Lemma exec_directive_frame p d st st' n :
  directive_name d <> Some n ->
  exec_directive p d st = Ok st' ->
  macros st' !! n = macros st !! n.
Proof.
  intros Hn He. destruct d as [|m b|m]; simpl in *.
  - by inversion He.
  - assert (m <> n) by congruence.
    destruct (macros st !! m) as [b'|] eqn:Hm.
    + destruct (decide (b' = b)); inversion He; simpl; [done|].
      by rewrite lookup_insert_ne.
    + inversion He; simpl. by rewrite lookup_insert_ne.
  - assert (m <> n) by congruence.
    inversion He; simpl. by rewrite lookup_delete_ne.
Qed.

(** No directive stops the translation. *)
Lemma exec_directive_total p d st : exists st', exec_directive p d st = Ok st'.
Proof.
  destruct d as [|m b|m]; simpl; eauto.
  destruct (macros st !! m) as [b'|]; [|eauto].
  destruct (decide (b' = b)); eauto.
Qed.

Lemma exec_directives_total p ds : forall st,
  exists st', exec_directives p ds st = Ok st'.
Proof.
  induction ds as [|d ds IH]; intros st; simpl; [eauto|].
  destruct (exec_directive_total p d st) as [st1 ->]. simpl. apply IH.
Qed.

(** After [#define n b] the name has the list [b], whatever it had. *)
Lemma exec_directive_define p m b st st' :
  exec_directive p (Define m b) st = Ok st' ->
  macros st' = <[m := b]> (macros st) /\ once st' = once st.
Proof.
  simpl. destruct (macros st !! m) as [b'|] eqn:Hm.
  - destruct (decide (b' = b)) as [->|]; intros He; inversion He; subst; simpl.
    + by rewrite insert_id.
    + done.
  - intros He. by inversion He; subst.
Qed.

Lemma mentions_cons n d ds :
  mentions n (d :: ds) <-> directive_name d = Some n \/ mentions n ds.
Proof.
  unfold mentions. rewrite fmap_cons, elem_of_cons. split.
  - intros [->|?]; auto.
  - intros [->|?]; auto.
Qed.

Lemma exec_directives_frame p ds : forall st st' n,
  ~ mentions n ds ->
  exec_directives p ds st = Ok st' ->
  macros st' !! n = macros st !! n.
Proof.
  induction ds as [|d ds IH]; intros st st' n Hn He; simpl in He.
  - by inversion He.
  - apply bind_Ok in He as (st1 & H1 & H2).
    rewrite mentions_cons in Hn.
    rewrite (IH st1 st' n); [|tauto|done].
    eapply exec_directive_frame; [|done]. tauto.
Qed.

(** A name that is defined and not removed stays defined, with the list it
    had or with the one of a later [#define]: the last definition wins. *)
Lemma exec_directives_last p ds : forall st st' n x,
  macros st !! n = Some x ->
  n ∉ undefined_names ds ->
  exec_directives p ds st = Ok st' ->
  exists b', macros st' !! n = Some b' /\ (b' = x \/ (n, b') ∈ definitions ds).
Proof.
  induction ds as [|d ds IH]; intros st st' n x Hx Hu He; simpl in He.
  - inversion He; subst. eauto.
  - apply bind_Ok in He as (st1 & H1 & H2).
    destruct d as [|m b0|m].
    + simpl in H1. inversion H1; subst st1. simpl in Hu.
      eapply (IH _ st' n x); [|exact Hu|exact H2]. done.
    + apply exec_directive_define in H1 as [Hm _]. simpl in Hu.
      destruct (decide (m = n)) as [->|Hne].
      * destruct (IH st1 st' n b0) as (b' & Hb' & Hor); [|done|done|].
        { by rewrite Hm, lookup_insert_eq. }
        exists b'. split; [done|]. right. simpl.
        destruct Hor as [->|?]; [by left|by right].
      * destruct (IH st1 st' n x) as (b' & Hb' & Hor); [|done|done|].
        { by rewrite Hm, lookup_insert_ne. }
        exists b'. split; [done|]. destruct Hor as [->|?]; [by left|].
        right. simpl. by right.
    + simpl in H1. inversion H1; subst st1. simpl in Hu.
      apply not_elem_of_cons in Hu as [Hne Hu].
      eapply (IH _ st' n x); [|exact Hu|exact H2].
      simpl. by rewrite lookup_delete_ne.
Qed.

(** A name that a list defines in one way only, and does not remove, has
    that replacement list at the end. *)
Lemma exec_directives_defines p ds : forall st st' n b,
  (n, b) ∈ definitions ds ->
  (forall b', (n, b') ∈ definitions ds -> b' = b) ->
  n ∉ undefined_names ds ->
  exec_directives p ds st = Ok st' ->
  macros st' !! n = Some b.
Proof.
  induction ds as [|d ds IH]; intros st st' n b Hd Hf Hu He; simpl in *.
  - by apply elem_of_nil in Hd.
  - apply bind_Ok in He as (st1 & H1 & H2).
    destruct d as [|m b0|m]; simpl in *.
    + eauto.
    + destruct (decide (m = n)) as [->|Hne].
      * assert (b0 = b) as -> by (apply Hf; by left).
        apply (exec_directive_define p) in H1 as [Hm _].
        destruct (exec_directives_last p ds st1 st' n b) as (b' & Hb' & Hor);
          [by rewrite Hm, lookup_insert_eq|done|done|].
        rewrite Hb'. f_equal. destruct Hor as [->|?]; [done|].
        apply Hf. by right.
      * apply elem_of_cons in Hd as [Heq|Hd]; [congruence|].
        apply (IH st1 st' n b); [done| |done|done].
        intros b' ?. apply Hf. by right.
    + apply not_elem_of_cons in Hu as [_ Hu]. eauto.
Qed.

(** The set of guarded files only grows, and only by the file being read. *)
Lemma exec_directive_once p d st st' :
  exec_directive p d st = Ok st' ->
  once st ⊆ once st' /\ once st' ⊆ {[ p ]} ∪ once st.
Proof.
  intros He. destruct d as [|m b|m].
  - simpl in He. inversion He; simpl. set_solver.
  - apply exec_directive_define in He as [_ ->]. set_solver.
  - simpl in He. inversion He; simpl. set_solver.
Qed.

Lemma exec_directives_once p ds : forall st st',
  exec_directives p ds st = Ok st' ->
  once st ⊆ once st' /\ once st' ⊆ {[ p ]} ∪ once st.
Proof.
  induction ds as [|d ds IH]; intros st st' He; simpl in He.
  - inversion He; subst. set_solver.
  - apply bind_Ok in He as (st1 & H1 & H2).
    apply exec_directive_once in H1 as [Ha Hb].
    apply IH in H2 as [Hc Hd]. clear IH. split.
    + by transitivity (once st1).
    + intros x Hx. apply Hd in Hx. apply elem_of_union in Hx as [Hx|Hx].
      * apply elem_of_union; by left.
      * by apply Hb.
Qed.

(** A file that says [#pragma once] is marked when its reading ends. *)
Lemma exec_directives_marks p ds : forall st st',
  PragmaOnce ∈ ds ->
  exec_directives p ds st = Ok st' ->
  p ∈ once st'.
Proof.
  induction ds as [|d ds IH]; intros st st' Hin He; simpl in He.
  - by apply elem_of_nil in Hin.
  - apply bind_Ok in He as (st1 & H1 & H2).
    apply elem_of_cons in Hin as [<-|Hin]; [|eauto].
    simpl in H1. inversion H1; subst st1.
    apply exec_directives_once in H2 as [H2 _]. simpl in H2. set_solver.
Qed.

Lemma include_file_marked f st :
  path f ∈ once st -> include_file f st = Ok st.
Proof. intros H. unfold include_file. by rewrite decide_True. Qed.

Lemma include_file_marks f st st' :
  PragmaOnce ∈ lines f ->
  include_file f st = Ok st' ->
  path f ∈ once st'.
Proof.
  unfold include_file. intros Hp He.
  destruct (decide (path f ∈ once st)).
  - by inversion He; subst.
  - by eapply exec_directives_marks.
Qed.



End Preprocessor.

(* ===================================================================== *)
(** ** Properties of macro replacement *)
(* ===================================================================== *)

Section Replacement.
Implicit Types (m : gmap string (list pp_token)) (ts b : list pp_token).

(** Replacement works token by token. *)
Lemma expand_tokens_app fuel m hide ts1 ts2 :
  expand_tokens fuel m hide (ts1 ++ ts2)
  = expand_tokens fuel m hide ts1 ++ expand_tokens fuel m hide ts2.
Proof. destruct fuel; simpl; [done|]. apply flat_map_app. Qed.

(** A sequence without identifiers is its own replacement, whatever the
    table holds. *)
Lemma expand_tokens_closed fuel m hide ts :
  closed ts -> expand_tokens fuel m hide ts = ts.
Proof.
  destruct fuel; simpl; [done|].
  induction 1 as [|t ts Ht _ IH]; simpl; [done|].
  rewrite IH. by destruct t.
Qed.

Lemma macro_expand_closed m ts : closed ts -> macro_expand m ts = ts.
Proof. apply expand_tokens_closed. Qed.

Lemma macro_expand_app m ts1 ts2 :
  macro_expand m (ts1 ++ ts2) = macro_expand m ts1 ++ macro_expand m ts2.
Proof. apply expand_tokens_app. Qed.

(** A name whose replacement list is closed is replaced by that list. *)
Lemma macro_expand_name m n b :
  m !! n = Some b -> closed b -> macro_expand m [PPIdent n] = b.
Proof.
  intros Hn Hb. unfold macro_expand. cbn [expand_tokens flat_map].
  rewrite decide_False by apply not_elem_of_nil.
  rewrite Hn, app_nil_r. by apply expand_tokens_closed.
Qed.

(** A name that is not in the table is left as it is. *)
Lemma macro_expand_undefined m n :
  m !! n = None -> macro_expand m [PPIdent n] = [PPIdent n].
Proof.
  intros Hn. unfold macro_expand. cbn [expand_tokens flat_map].
  rewrite decide_False by apply not_elem_of_nil. by rewrite Hn.
Qed.

End Replacement.

(* ===================================================================== *)
(** ** The header's table, entry by entry *)
(* ===================================================================== *)

Section Header.

Lemma header_state_ok :
  header_state
  = Ok (PPState (list_to_map (definitions charybdis_layers_h))
                {[ path charybdis_layers_file ]}).
Proof. vm_compute. reflexivity. Qed.

Lemma header_macros_eq :
  header_macros = list_to_map (definitions charybdis_layers_h).
Proof. unfold header_macros. by rewrite header_state_ok. Qed.

Lemma layer_names_NoDup : NoDup layer_names.
Proof. compute_done. Qed.

Lemma header_macros_lookup n b :
  header_macros !! n = Some b <-> (n, b) ∈ definitions charybdis_layers_h.
Proof.
  rewrite header_macros_eq. symmetry. apply elem_of_list_to_map.
  change (NoDup layer_names). apply layer_names_NoDup.
Qed.

Lemma header_macros_dom : dom header_macros = list_to_set layer_names.
Proof. rewrite header_macros_eq, dom_list_to_map_L. reflexivity. Qed.

(** The header's eight lines. *)
Lemma header_lines d :
  d ∈ charybdis_layers_h <->
  d = PragmaOnce \/ exists n b, d = Define n b /\ (n, b) ∈ definitions charybdis_layers_h.
Proof.
  unfold charybdis_layers_h. simpl definitions.
  rewrite !elem_of_cons, !elem_of_nil. split.
  - intros H.
    repeat (destruct H as [->|H];
            [first [ by left
                   | right; do 2 eexists; split; [done|];
                     rewrite !elem_of_cons; tauto ] |]).
    done.
  - intros [->|(n & b & -> & H)]; [tauto|].
    rewrite !elem_of_cons, elem_of_nil in H.
    repeat (destruct H as [H|H]; [inversion H; subst; tauto|]). done.
Qed.

(** Every replacement list of the header is one token, a digit. *)
Lemma header_definitions n b :
  (n, b) ∈ definitions charybdis_layers_h ->
  n ∈ layer_names /\ closed b /\
  exists s v, b = [PPNumber s] /\ decimal_literal s = Some v
              /\ integer_literal s = Some v /\ 0 <= v <= 6.
Proof.
  simpl definitions. rewrite !elem_of_cons, elem_of_nil. intros H.
  repeat (destruct H as [H|H]; [inversion H; subst; clear H|]); try done.
  all: split; [compute_done|].
  all: split; [repeat constructor|].
  all: do 2 eexists; split; [reflexivity|].
  all: split; [vm_compute; reflexivity|].
  all: split; [reflexivity|lia].
Qed.

Lemma layer_names_defined n :
  n ∈ layer_names <-> is_Some (header_macros !! n).
Proof. rewrite <- elem_of_dom, header_macros_dom. by rewrite elem_of_list_to_set. Qed.

(** The header defines no name in two ways. *)
Lemma header_definitions_functional n b b' :
  (n, b) ∈ definitions charybdis_layers_h ->
  (n, b') ∈ definitions charybdis_layers_h -> b' = b.
Proof. rewrite <- !header_macros_lookup. congruence. Qed.

(** Read in whatever state, the header leaves each of its names with its
    own replacement list. *)
Lemma header_defines p st st' n b :
  (n, b) ∈ definitions charybdis_layers_h ->
  exec_directives p charybdis_layers_h st = Ok st' ->
  macros st' !! n = Some b.
Proof.
  intros Hd He.
  apply (exec_directives_defines p charybdis_layers_h st st' n b Hd);
    [|apply not_elem_of_nil|done].
  intros b'. by apply header_definitions_functional.
Qed.

End Header.

(* ===================================================================== *)
(** ** Layer indices *)
(* ===================================================================== *)

Section LayerIndex.

Lemma layer_index_Some n v :
  layer_index n = Some v <->
  exists s, (n, [PPNumber s]) ∈ definitions charybdis_layers_h
            /\ integer_literal s = Some v.
Proof.
  unfold layer_index. split.
  - destruct (header_macros !! n) as [b|] eqn:Hb; [|done].
    pose proof Hb as Hd. apply header_macros_lookup in Hd.
    destruct (header_definitions _ _ Hd) as (_ & Hc & s & v' & -> & _ & _ & _).
    rewrite (macro_expand_name _ _ _ Hb Hc). simpl. eauto.
  - intros (s & Hd & Hv).
    pose proof Hd as Hb. apply header_macros_lookup in Hb. rewrite Hb.
    destruct (header_definitions _ _ Hd) as (_ & Hc & _).
    rewrite (macro_expand_name _ _ _ Hb Hc). done.
Qed.

(** The index of a name is its position in the header, counted from 0. *)
Lemma layer_index_position n v :
  layer_index n = Some v <->
  0 <= v /\ layer_names !! Z.to_nat v = Some n.
Proof.
  split.
  - rewrite layer_index_Some. intros (s & Hd & Hv). revert Hd.
    simpl definitions. rewrite !elem_of_cons, elem_of_nil. intros Hd.
    repeat (destruct Hd as [Hd|Hd]; [inversion Hd; subst; clear Hd|]); try done.
    all: vm_compute in Hv; inversion Hv; subst; split; [lia|reflexivity].
  - intros [H0 Hl].
    assert (Hlt : (Z.to_nat v < 7)%nat) by (by apply lookup_lt_Some in Hl).
    assert (Hv : v = Z.of_nat (Z.to_nat v)) by lia.
    destruct (Z.to_nat v) as [|[|[|[|[|[|[|k]]]]]]]; [..|lia].
    all: simpl in Hv, Hl; inversion Hl; subst; vm_compute; reflexivity.
Qed.

Lemma layer_index_range n v : layer_index n = Some v -> 0 <= v <= 6.
Proof.
  rewrite layer_index_position. intros [H0 Hl].
  apply lookup_lt_Some in Hl. simpl in Hl. lia.
Qed.

Lemma layer_index_defined n : is_Some (layer_index n) <-> n ∈ layer_names.
Proof.
  rewrite layer_names_defined. unfold layer_index. split.
  - destruct (header_macros !! n); [eauto | by intros [? ?]].
  - intros [b Hb]. pose proof Hb as Hd. apply header_macros_lookup in Hd.
    destruct (header_definitions _ _ Hd) as (_ & _ & s & v & -> & _ & Hv & _).
    exists v. apply layer_index_Some. eauto.
Qed.

Lemma int_of_Z_small z : - 2 ^ 31 <= z < 2 ^ 31 -> int_of_Z z = z.
Proof. intros Hz. unfold int_of_Z. rewrite Z.mod_small; lia. Qed.

(** A layer name as an initialiser: its index when the header defines it, the
    undefined-symbol diagnostic when it does not. *)
Lemma eval_initializer_name n :
  eval_initializer header_macros [PPIdent n]
  = match layer_index n with
    | Some v => Ok v
    | None => Err (UndeclaredIdentifier n)
    end.
Proof.
  unfold eval_initializer, layer_index.
  destruct (header_macros !! n) as [b|] eqn:Hb.
  - pose proof Hb as Hd. apply header_macros_lookup in Hd.
    destruct (header_definitions _ _ Hd) as (_ & Hc & s & v & -> & _ & Hv & Hr).
    rewrite (macro_expand_name _ _ _ Hb Hc). simpl. rewrite Hv.
    rewrite int_of_Z_small; [done|lia].
  - by rewrite (macro_expand_undefined _ _ Hb).
Qed.

End LayerIndex.

(* ===================================================================== *)
(** ** Reading the header's lines in any selection and order *)
(* ===================================================================== *)

Section Selection.
Implicit Types (p n : string) (ds : list directive) (st : pp_state).

(** A selection of the header's lines removes no name. *)
Lemma selection_undefines_nothing ds :
  (forall d, d ∈ ds -> d ∈ charybdis_layers_h) -> undefined_names ds = [].
Proof.
  induction ds as [|d ds IH]; intros Hds; [done|].
  assert (Hd : d ∈ charybdis_layers_h) by (apply Hds; by left).
  assert (Hrec : undefined_names ds = []).
  { apply IH. intros d' Hd'. apply Hds. by right. }
  apply header_lines in Hd as [->|(n & b & -> & _)]; done.
Qed.

Lemma definitions_elem n b ds :
  (n, b) ∈ definitions ds <-> Define n b ∈ ds.
Proof.
  induction ds as [|d ds IH]; simpl.
  - by rewrite !elem_of_nil.
  - destruct d as [|m b0|m]; rewrite ?elem_of_cons, IH.
    + split; [tauto | by intros [?|?]].
    + split; (intros [H|H]; [left; by inversion H | by right]).
    + split; [tauto | by intros [?|?]].
Qed.

(** A selection of the header's lines leaves each name it defines with the
    header's replacement list, and keeps a name that already has it. *)
Lemma selection_defines p ds st st' n b :
  (forall d, d ∈ ds -> d ∈ charybdis_layers_h) ->
  (n, b) ∈ definitions ds ->
  exec_directives p ds st = Ok st' ->
  macros st' !! n = Some b.
Proof.
  intros Hds Hd He.
  assert (Hh : forall b', (n, b') ∈ definitions ds ->
                          (n, b') ∈ definitions charybdis_layers_h).
  { intros b' Hb'. apply definitions_elem, Hds. by apply definitions_elem. }
  apply (exec_directives_defines p ds st st' n b Hd); [| |done].
  - intros b' Hb'. apply (header_definitions_functional n); by apply Hh.
  - rewrite (selection_undefines_nothing _ Hds). apply not_elem_of_nil.
Qed.

Lemma selection_keeps p ds st st' n b :
  (forall d, d ∈ ds -> d ∈ charybdis_layers_h) ->
  (n, b) ∈ definitions charybdis_layers_h ->
  macros st !! n = Some b ->
  exec_directives p ds st = Ok st' ->
  macros st' !! n = Some b.
Proof.
  intros Hds Hd Hn He.
  destruct (exec_directives_last p ds st st' n b Hn) as (b' & Hb' & Hor); [|done|].
  { rewrite (selection_undefines_nothing _ Hds). apply not_elem_of_nil. }
  rewrite Hb'. f_equal. destruct Hor as [->|Hor]; [done|].
  apply (header_definitions_functional n); [done|].
  apply definitions_elem, Hds. by apply definitions_elem.
Qed.

End Selection.

(* ===================================================================== *)
(** ** Units that initialise a constant from [RAISE] *)
(* ===================================================================== *)

Section Units.
Implicit Types (self : string) (it : tu_item) (its : list tu_item).
Implicit Types (st : tu_state).

Lemma exec_items_app self its1 its2 st :
  exec_items self (its1 ++ its2) st
  = bind (exec_items self its1 st) (exec_items self its2).
Proof.
  revert st. induction its1 as [|it its1 IH]; intros st; simpl; [done|].
  destruct (exec_item self it st); simpl; [apply IH|done].
Qed.








(** The same for any name of the header: items that leave it alone keep
    the header's definition of it. *)
Lemma quiet_item_keeps self it st st' n b :
  (n, b) ∈ definitions charybdis_layers_h ->
  quiet [n] it ->
  exec_item self it st = Ok st' ->
  macros (pp st) !! n = Some b -> macros (pp st') !! n = Some b.
Proof.
  intros Hd Hq He Hn.
  destruct it as [f|d|var init]; cbn [exec_item quiet] in *.
  - apply bind_Ok in He as (p & Hp & He). inversion He; subst; simpl. clear He.
    unfold include_file in Hp.
    destruct (decide (path f ∈ once (pp st))); [by inversion Hp; subst|].
    destruct Hq as [->|Hq].
    + by apply (header_defines _ _ _ _ _ Hd Hp).
    + apply Forall_cons in Hq as [Hq _].
      by rewrite (exec_directives_frame _ _ _ _ n Hq Hp).
  - apply bind_Ok in He as (p & Hp & He). inversion He; subst; simpl. clear He.
    apply Forall_cons in Hq as [Hq _].
    by rewrite (exec_directive_frame _ _ _ _ n Hq Hp).
  - apply bind_Ok in He as (y & _ & He).
    destruct (consts st !! y); [discriminate|].
    apply bind_Ok in He as (v & _ & He). by inversion He; subst.
Qed.

Lemma quiet_items_keep self its n b : forall st st',
  (n, b) ∈ definitions charybdis_layers_h ->
  Forall (quiet [n]) its ->
  exec_items self its st = Ok st' ->
  macros (pp st) !! n = Some b -> macros (pp st') !! n = Some b.
Proof.
  induction its as [|it its IH]; intros st st' Hd Hq He Hn; simpl in He.
  - by inversion He; subst.
  - apply bind_Ok in He as (st1 & H1 & H2).
    apply Forall_cons in Hq as [Hq1 Hq2].
    eapply IH; [done|done|exact H2|]. by eapply quiet_item_keeps.
Qed.

End Units.

(* ===================================================================== *)
(** ** The claims *)
(* ===================================================================== *)

(** C1.  Each of the seven names is replaced by its integer literal, and the
    literals are 0 to 6 in declaration order: BASE is 0, POINTER 1, LOWER 2,
    RAISE 3, SYMBOLS 4, SCROLL 5 and SNIPING 6. *)
Theorem layer_macros_expand_in_order :
  defined_names charybdis_layers_h
  = [ "BASE"; "POINTER"; "LOWER"; "RAISE"; "SYMBOLS"; "SCROLL"; "SNIPING" ]
  /\ (fun n => macro_expand header_macros [PPIdent n]) <$> defined_names charybdis_layers_h
     = [ [PPNumber "0"]; [PPNumber "1"]; [PPNumber "2"]; [PPNumber "3"];
         [PPNumber "4"]; [PPNumber "5"]; [PPNumber "6"] ]
  /\ layer_index <$> defined_names charybdis_layers_h
     = [ Some 0; Some 1; Some 2; Some 3; Some 4; Some 5; Some 6 ]
  /\ [ BASE; POINTER; LOWER; RAISE; SYMBOLS; SCROLL; SNIPING ]
     = [ 0; 1; 2; 3; 4; 5; 6 ].
Proof.
  split; [reflexivity|].
  split; [vm_compute; reflexivity|].
  split; [vm_compute; reflexivity|reflexivity].
Qed.

(** C2.  The names the header defines are exactly BASE, POINTER, LOWER,
    RAISE, SYMBOLS, SCROLL and SNIPING: the macro table after the header has
    these seven entries and no other, and the file has a [#define] for no
    other name (its guard is [#pragma once], which defines nothing). *)
Theorem header_defines_exactly_seven_names :
  dom header_macros
  = list_to_set [ "BASE"; "POINTER"; "LOWER"; "RAISE"; "SYMBOLS"; "SCROLL"; "SNIPING" ]
  /\ size header_macros = 7%nat
  /\ forall n, n ∈ defined_names charybdis_layers_h
               <-> n ∈ [ "BASE"; "POINTER"; "LOWER"; "RAISE"; "SYMBOLS"; "SCROLL"; "SNIPING" ].
Proof.
  split; [apply header_macros_dom|].
  split; [|done].
  rewrite header_macros_eq, map_size_list_to_map; [done|].
  apply layer_names_NoDup.
Qed.

(** C3.  Uniqueness: two different names among the seven stand for two
    different integers. *)
Theorem layer_index_injective (a b : string) :
  a ∈ layer_names -> b ∈ layer_names -> a <> b ->
  exists va vb, layer_index a = Some va /\ layer_index b = Some vb /\ va <> vb.
Proof.
  intros Ha Hb Hab.
  apply layer_index_defined in Ha as [va Ha].
  apply layer_index_defined in Hb as [vb Hb].
  exists va, vb. split; [done|]. split; [done|].
  intros ->. apply Hab.
  apply layer_index_position in Ha as [_ Ha].
  apply layer_index_position in Hb as [_ Hb].
  congruence.
Qed.

Lemma layer_index_injective_witness :
  exists va vb, layer_index "BASE" = Some va /\ layer_index "SNIPING" = Some vb
                /\ va <> vb.
Proof.
  apply (layer_index_injective "BASE" "SNIPING"); [compute_done|compute_done|done].
Defined.

(** C4.  Range and contiguity: a name has index [v] exactly when it is the
    name in position [v] of the declaration order, counted from 0; so every
    index lies in [0,6], every integer of [0,6] is the index of exactly one
    name, and the n-th name has index n-1. *)
Theorem layer_indices_contiguous :
  defined_names charybdis_layers_h = layer_names
  /\ length layer_names = 7%nat
  /\ (forall n v, layer_index n = Some v <->
                  0 <= v /\ layer_names !! Z.to_nat v = Some n)
  /\ (forall n v, layer_index n = Some v -> 0 <= v <= 6)
  /\ (forall v, 0 <= v <= 6 ->
        exists n, layer_index n = Some v
                  /\ forall n', layer_index n' = Some v -> n' = n)
  /\ (forall k n, layer_names !! k = Some n -> layer_index n = Some (Z.of_nat k)).
Proof.
  split; [reflexivity|]. split; [reflexivity|].
  split; [apply layer_index_position|].
  split; [apply layer_index_range|].
  split.
  - intros v Hv.
    destruct (lookup_lt_is_Some_2 layer_names (Z.to_nat v)) as [n Hn].
    { simpl. lia. }
    exists n. split.
    + apply layer_index_position. split; [lia|done].
    + intros n' Hn'. apply layer_index_position in Hn' as [_ Hn']. congruence.
  - intros k n Hk. apply layer_index_position.
    rewrite Nat2Z.id. split; [lia|done].
Qed.






(** So does a unit that declares before it includes: [RAISE] is not a macro
    yet at the declaration, and the translation stops there. *)
Example declaration_before_inclusion :
  translate "charybdis.keymap"
    [ IntDecl "x" [PPIdent "RAISE"]; Include charybdis_layers_file ]
  = Err (UndeclaredIdentifier "RAISE").
Proof. vm_compute. reflexivity. Qed.

(** C7, as the code has it.  Immutability of a definition [#define n b] of
    the header: the file has no [#undef] and defines no name twice, so at
    whatever line the file is cut, the definition, once made, is in the table
    and is still there unchanged at the end of the file.  Outside the file,
    only a directive that names [n] can change it; and wherever the name is
    replaced while the definition is in force - any tokens around it, any
    other macros in the table - it is replaced by the same literal, the one
    of its index. *)
Theorem layer_definition_immutable (n : string) (b : list pp_token) :
  (n, b) ∈ definitions charybdis_layers_h ->
  undefined_names charybdis_layers_h = []
  /\ NoDup (defined_names charybdis_layers_h)
  /\ (forall p pre post,
        charybdis_layers_h = pre ++ post -> (n, b) ∈ definitions pre ->
        exists st1 st2,
          exec_directives p pre pp_init = Ok st1
          /\ exec_directives p post st1 = Ok st2
          /\ macros st1 !! n = Some b /\ macros st2 !! n = Some b)
  /\ (forall p ds st st',
        ~ mentions n ds -> macros st !! n = Some b ->
        exec_directives p ds st = Ok st' -> macros st' !! n = Some b)
  /\ (forall m before after,
        m !! n = Some b ->
        macro_expand m (before ++ PPIdent n :: after)
        = macro_expand m before ++ b ++ macro_expand m after)
  /\ (exists v, constant_value b = Some v /\ layer_index n = Some v).
Proof.
  intros Hd.
  destruct (header_definitions _ _ Hd) as (_ & Hc & s & v & -> & _ & Hv & _).
  split; [reflexivity|]. split; [apply layer_names_NoDup|].
  split; [|split; [|split]].
  - intros p pre post Hcut Hpre.
    assert (Hin : forall d, d ∈ pre ++ post -> d ∈ charybdis_layers_h)
      by (by rewrite <- Hcut).
    assert (Hin1 : forall d, d ∈ pre -> d ∈ charybdis_layers_h).
    { intros d ?. apply Hin, elem_of_app. by left. }
    assert (Hin2 : forall d, d ∈ post -> d ∈ charybdis_layers_h).
    { intros d ?. apply Hin, elem_of_app. by right. }
    destruct (exec_directives_total p pre pp_init) as [st1 H1].
    destruct (exec_directives_total p post st1) as [st2 H2].
    pose proof (selection_defines _ _ _ _ _ _ Hin1 Hpre H1) as Hn1.
    exists st1, st2. repeat split; try done.
    by apply (selection_keeps _ _ _ _ _ _ Hin2 Hd Hn1 H2).
  - intros p ds st st' Hm Hn He.
    by rewrite (exec_directives_frame _ _ _ _ n Hm He).
  - intros m before after Hm.
    change (PPIdent n :: after) with ([PPIdent n] ++ after).
    rewrite !macro_expand_app. by rewrite (macro_expand_name _ _ _ Hm Hc).
  - exists v. split; [done|]. apply layer_index_Some. eauto.
Qed.

Lemma layer_definition_immutable_witness :
  undefined_names charybdis_layers_h = []
  /\ NoDup (defined_names charybdis_layers_h)
  /\ (forall p pre post,
        charybdis_layers_h = pre ++ post ->
        ("RAISE", [PPNumber "3"]) ∈ definitions pre ->
        exists st1 st2,
          exec_directives p pre pp_init = Ok st1
          /\ exec_directives p post st1 = Ok st2
          /\ macros st1 !! "RAISE" = Some [PPNumber "3"]
          /\ macros st2 !! "RAISE" = Some [PPNumber "3"])
  /\ (forall p ds st st',
        ~ mentions "RAISE" ds -> macros st !! "RAISE" = Some [PPNumber "3"] ->
        exec_directives p ds st = Ok st' -> macros st' !! "RAISE" = Some [PPNumber "3"])
  /\ (forall m before after,
        m !! "RAISE" = Some [PPNumber "3"] ->
        macro_expand m (before ++ PPIdent "RAISE" :: after)
        = macro_expand m before ++ [PPNumber "3"] ++ macro_expand m after)
  /\ (exists v, constant_value [PPNumber "3"] = Some v
                /\ layer_index "RAISE" = Some v).
Proof.
  apply (layer_definition_immutable "RAISE" [PPNumber "3"]). compute_done.
Defined.

(** C7 as it is written, the same constant in every expansion context,
    fails: after the header a unit can define [RAISE] anew, and from there
    on the name is replaced by 7 where the header alone gives 3. *)
Lemma raise_expands_to_7_once_redefined :
  exists st,
    translate "charybdis.keymap"
      [ Include charybdis_layers_file;
        Line (Undef "RAISE");
        Line (Define "RAISE" [PPNumber "7"]) ] = Ok st
    /\ macro_expand (macros (pp st)) [PPIdent "RAISE"] = [PPNumber "7"]
    /\ macro_expand header_macros [PPIdent "RAISE"] = [PPNumber "3"].
Proof.
  eexists. split; [vm_compute; reflexivity|].
  split; vm_compute; reflexivity.
Qed.

(** C8.  Lookup over the header's definitions: it yields a value for each of
    the seven names and [None] exactly for the names outside that set; and a
    name used as an initialiser fails only with the undefined-symbol
    diagnostic, and only when it is outside the set. *)
Theorem layer_lookup_total_on_seven (n : string) :
  (n ∈ [ "BASE"; "POINTER"; "LOWER"; "RAISE"; "SYMBOLS"; "SCROLL"; "SNIPING" ]
     <-> exists v, layer_index n = Some v)
  /\ (layer_index n = None
     <-> n ∉ [ "BASE"; "POINTER"; "LOWER"; "RAISE"; "SYMBOLS"; "SCROLL"; "SNIPING" ])
  /\ eval_initializer header_macros [PPIdent n]
     = match layer_index n with
       | Some v => Ok v
       | None => Err (UndeclaredIdentifier n)
       end.
Proof.
  change ((n ∈ layer_names <-> is_Some (layer_index n))
          /\ (layer_index n = None <-> n ∉ layer_names)
          /\ eval_initializer header_macros [PPIdent n]
             = match layer_index n with
               | Some v => Ok v
               | None => Err (UndeclaredIdentifier n)
               end).
  rewrite <- layer_index_defined. split; [done|]. split.
  - by rewrite eq_None_not_Some.
  - apply eval_initializer_name.
Qed.

(** C9, as the code has it.  Each replacement list of the header is one
    plain decimal literal and contains no identifier, so it names no other
    macro.  Hence its replacement is itself in every macro table, and the
    name stands for that literal in every table that holds this definition.
    Within the header the other lines do not matter: any selection of its
    lines that keeps the definition, read in any order, gives the name the
    same literal.  Outside it, what was defined before the header is read
    does not matter, nor does whatever comes after it and leaves the name
    alone: no later [#define] or [#undef] of that name. *)
Theorem layer_macro_independent (n : string) (b : list pp_token) :
  (n, b) ∈ definitions charybdis_layers_h ->
  (exists s v, b = [PPNumber s] /\ decimal_literal s = Some v
               /\ integer_literal s = Some v /\ layer_index n = Some v)
  /\ closed b
  /\ (forall m, macro_expand m b = b)
  /\ (forall m, m !! n = Some b -> macro_expand m [PPIdent n] = b)
  /\ (forall p ds,
        (forall d, d ∈ ds -> d ∈ charybdis_layers_h) -> Define n b ∈ ds ->
        exists st, exec_directives p ds pp_init = Ok st
                   /\ macros st !! n = Some b)
  /\ (forall self st0 c after,
        path charybdis_layers_file ∉ once st0 ->
        Forall (quiet [n]) after ->
        exists st1,
          include_file charybdis_layers_file st0 = Ok st1
          /\ macros st1 !! n = Some b
          /\ forall st,
               exec_items self after (TUState st1 c) = Ok st ->
               macros (pp st) !! n = Some b
               /\ macro_expand (macros (pp st)) [PPIdent n] = b).
Proof.
  intros Hd.
  destruct (header_definitions _ _ Hd) as (_ & Hc & s & v & -> & Hdec & Hv & _).
  split; [|split; [done|split; [|split; [|split]]]].
  - exists s, v. repeat split; try done. apply layer_index_Some. eauto.
  - intros m. by apply macro_expand_closed.
  - intros m Hm. by apply macro_expand_name.
  - intros p ds Hds Hin.
    destruct (exec_directives_total p ds pp_init) as [st Hst].
    exists st. split; [done|].
    eapply selection_defines; [exact Hds| |exact Hst].
    by apply definitions_elem.
  - intros self st0 c after Hnew Hq.
    unfold include_file. rewrite decide_False by done.
    change (lines charybdis_layers_file) with charybdis_layers_h.
    destruct (exec_directives_total (path charybdis_layers_file)
                charybdis_layers_h st0) as [st1 H1].
    pose proof (header_defines _ _ _ _ _ Hd H1) as Hn1.
    exists st1. split; [done|]. split; [done|].
    intros st He.
    pose proof (quiet_items_keep _ _ _ _ _ _ Hd Hq He Hn1) as Hn.
    split; [done|]. by apply macro_expand_name.
Qed.

Lemma layer_macro_independent_witness :
  (exists s v, [PPNumber "5"] = [PPNumber s] /\ decimal_literal s = Some v
               /\ integer_literal s = Some v /\ layer_index "SCROLL" = Some v)
  /\ closed [PPNumber "5"]
  /\ (forall m, macro_expand m [PPNumber "5"] = [PPNumber "5"])
  /\ (forall m, m !! "SCROLL" = Some [PPNumber "5"] ->
                macro_expand m [PPIdent "SCROLL"] = [PPNumber "5"])
  /\ (forall p ds,
        (forall d, d ∈ ds -> d ∈ charybdis_layers_h) ->
        Define "SCROLL" [PPNumber "5"] ∈ ds ->
        exists st, exec_directives p ds pp_init = Ok st
                   /\ macros st !! "SCROLL" = Some [PPNumber "5"])
  /\ (forall self st0 c after,
        path charybdis_layers_file ∉ once st0 ->
        Forall (quiet ["SCROLL"]) after ->
        exists st1,
          include_file charybdis_layers_file st0 = Ok st1
          /\ macros st1 !! "SCROLL" = Some [PPNumber "5"]
          /\ forall st,
               exec_items self after (TUState st1 c) = Ok st ->
               macros (pp st) !! "SCROLL" = Some [PPNumber "5"]
               /\ macro_expand (macros (pp st)) [PPIdent "SCROLL"]
                  = [PPNumber "5"]).
Proof.
  apply (layer_macro_independent "SCROLL" [PPNumber "5"]). compute_done.
Defined.

(** C9 as it is written, independent of any other header included after this
    one, fails: a header read afterwards can define [RAISE] anew, and the
    name then stands for 7 instead of 3. *)
Lemma raise_depends_on_a_later_header :
  exists st1 st2,
    translate "charybdis.keymap" [ Include charybdis_layers_file ] = Ok st1
    /\ translate "charybdis.keymap"
         [ Include charybdis_layers_file;
           Include (SourceFile "other_layers.h"
                      [ Undef "RAISE"; Define "RAISE" [PPNumber "7"] ]) ]
       = Ok st2
    /\ constant_value (macro_expand (macros (pp st1)) [PPIdent "RAISE"]) = Some 3
    /\ constant_value (macro_expand (macros (pp st2)) [PPIdent "RAISE"]) = Some 7.
Proof.
  do 2 eexists. split; [vm_compute; reflexivity|].
  split; [vm_compute; reflexivity|].
  split; vm_compute; reflexivity.
Qed.

(** C10, as the code has it.  Every index is a nonnegative integer of at
    most 6, hence below [2^w] for every width [w] of at least 3 bits:
    reducing it modulo [2^w] leaves it unchanged, so it fits every unsigned
    type of that width.  A signed type spends one bit on the sign: the index
    fits every signed type of at least 4 bits, the target's [int] among them,
    and a signed type of 3 bits only when it is at most 3. *)
Theorem layer_index_fits_width (n : string) (v w : Z) :
  layer_index n = Some v -> 3 <= w ->
  0 <= v <= 6 /\ v < 2 ^ w /\ wrap_unsigned w v = v /\ int_of_Z v = v
  /\ (4 <= w -> wrap_signed w v = v)
  /\ (wrap_signed 3 v = v <-> v <= 3).
Proof.
  intros Hv Hw. apply layer_index_range in Hv.
  assert (2 ^ 3 <= 2 ^ w) by (apply Z.pow_le_mono_r; lia).
  assert (v < 2 ^ w) by (change (2 ^ 3) with 8 in *; lia).
  split; [done|]. split; [done|]. split; [|split; [|split]].
  - unfold wrap_unsigned. apply Z.mod_small. lia.
  - apply int_of_Z_small. lia.
  - intros Hw4. unfold wrap_signed.
    assert (2 ^ 3 <= 2 ^ (w - 1)) by (apply Z.pow_le_mono_r; lia).
    assert (2 ^ w = 2 * 2 ^ (w - 1)) as ->.
    { rewrite <- Z.pow_succ_r by lia. f_equal. lia. }
    change (2 ^ 3) with 8 in *. rewrite Z.mod_small; lia.
  - assert (Hcases : v = 0 \/ v = 1 \/ v = 2 \/ v = 3 \/ v = 4 \/ v = 5 \/ v = 6)
      by lia.
    destruct Hcases as [->|[->|[->|[->|[->|[->| ->]]]]]]; vm_compute;
      split; intros; congruence.
Qed.

Lemma layer_index_fits_width_witness :
  0 <= 6 <= 6 /\ 6 < 2 ^ 4 /\ wrap_unsigned 4 6 = 6 /\ int_of_Z 6 = 6
  /\ (4 <= 4 -> wrap_signed 4 6 = 6)
  /\ (wrap_signed 3 6 = 6 <-> 6 <= 3).
Proof.
  apply (layer_index_fits_width "SNIPING" 6 4); [vm_compute; reflexivity | lia].
Defined.

(** C10 as it is written, any integer type of at least 3 bits, fails for the
    signed type of 3 bits, which holds -4 to 3: there SNIPING, 6, is -2. *)
Lemma sniping_wraps_in_signed_3_bits :
  layer_index "SNIPING" = Some 6 /\ wrap_signed 3 6 = -2.
Proof. split; vm_compute; reflexivity. Qed.

(* ===================================================================== *)
(** ** The header in a unit that already has macros *)
(* ===================================================================== *)

Section AnyState.
Implicit Types (p n : string) (ds : list directive) (st : pp_state).

(** The header names its seven macros and nothing else. *)
Lemma header_mentions n : mentions n charybdis_layers_h -> n ∈ layer_names.
Proof.
  unfold mentions, charybdis_layers_h. simpl.
  rewrite !elem_of_cons, elem_of_nil. intros H.
  repeat (destruct H as [H|H]; [try discriminate; inversion H; compute_done|]).
  done.
Qed.







End AnyState.

Section LaterInclusion.
Implicit Types (self : string) (it : tu_item) (its : list tu_item).
Implicit Types (st : tu_state).

(** No item of a unit takes a mark away. *)
Lemma exec_item_once self it st st' :
  exec_item self it st = Ok st' -> once (pp st) ⊆ once (pp st').
Proof.
  intros He. destruct it as [f|d|var init]; cbn [exec_item] in He.
  - apply bind_Ok in He as (p & Hp & He). inversion He; subst; simpl.
    unfold include_file in Hp. destruct (decide (path f ∈ once (pp st))).
    + by inversion Hp; subst.
    + by apply exec_directives_once in Hp as [? _].
  - apply bind_Ok in He as (p & Hp & He). inversion He; subst; simpl.
    by apply exec_directive_once in Hp as [? _].
  - apply bind_Ok in He as (y & _ & He).
    destruct (consts st !! y); [discriminate|].
    apply bind_Ok in He as (v & _ & He). by inversion He; subst.
Qed.

Lemma exec_items_once self its : forall st st',
  exec_items self its st = Ok st' -> once (pp st) ⊆ once (pp st').
Proof.
  induction its as [|it its IH]; intros st st' He; simpl in He.
  - by inversion He; subst.
  - apply bind_Ok in He as (st1 & H1 & H2).
    transitivity (once (pp st1)); [by eapply exec_item_once | by eapply IH].
Qed.

End LaterInclusion.

(* ===================================================================== *)
(** ** Further properties of the header *)
(* ===================================================================== *)

(** X1.  Frame: in whatever state the header is included, it changes no macro
    other than its seven names, and it marks no file but itself. *)
Theorem header_inclusion_frame (st st' : pp_state) :
  include_file charybdis_layers_file st = Ok st' ->
  (forall n, n ∉ layer_names -> macros st' !! n = macros st !! n)
  /\ once st ⊆ once st'
  /\ once st' ⊆ {[ path charybdis_layers_file ]} ∪ once st.
Proof.
  unfold include_file. intros He.
  destruct (decide (path charybdis_layers_file ∈ once st)) as [Hin|Hnin].
  - inversion He; subst. split; [done|]. split; [done|].
    apply union_subseteq_r.
  - split; [|by eapply exec_directives_once].
    intros n Hn. eapply exec_directives_frame; [|exact He].
    intros Hm. by apply Hn, header_mentions.
Qed.

Lemma header_inclusion_frame_witness :
  exists st',
    include_file charybdis_layers_file
      (PPState {["KC_A" := [PPNumber "4"]]} ∅) = Ok st'
    /\ (forall n, n ∉ layer_names ->
          macros st' !! n = macros (PPState {["KC_A" := [PPNumber "4"]]} ∅) !! n)
    /\ once (PPState {["KC_A" := [PPNumber "4"]]} ∅) ⊆ once st'
    /\ once st' ⊆ {[ path charybdis_layers_file ]}
                   ∪ once (PPState {["KC_A" := [PPNumber "4"]]} ∅).
Proof.
  eexists. split.
  - vm_compute. reflexivity.
  - apply (header_inclusion_frame (PPState {["KC_A" := [PPNumber "4"]]} ∅)).
    vm_compute. reflexivity.
Defined.

(** X2.  In a state where the header is not yet marked, its inclusion always
    completes, whatever the state defines.  The table is then the header's
    seven entries laid over the earlier table - where a name was defined
    before, the header's replacement list takes its place - and the header's
    path is the one mark added. *)
Theorem header_inclusion_overrides (st : pp_state) :
  path charybdis_layers_file ∉ once st ->
  exists st',
    include_file charybdis_layers_file st = Ok st'
    /\ macros st' = header_macros ∪ macros st
    /\ once st' = {[ path charybdis_layers_file ]} ∪ once st.
Proof.
  intros Hnew. unfold include_file. rewrite decide_False by done.
  change (lines charybdis_layers_file) with charybdis_layers_h.
  destruct (exec_directives_total (path charybdis_layers_file)
              charybdis_layers_h st) as [st' He].
  exists st'. split; [done|]. split.
  - apply map_eq. intros n. rewrite lookup_union.
    destruct (header_macros !! n) as [b|] eqn:Hn.
    + apply header_macros_lookup in Hn.
      rewrite (header_defines _ _ _ _ _ Hn He).
      by destruct (macros st !! n).
    + rewrite (exec_directives_frame _ _ _ _ n) with (2 := He).
      { by destruct (macros st !! n). }
      intros Hm. apply header_mentions, layer_names_defined in Hm.
      rewrite Hn in Hm. by destruct Hm.
  - pose proof (exec_directives_once _ _ _ _ He) as [Hmono Hbound].
    assert (Hmark : path charybdis_layers_file ∈ once st').
    { eapply exec_directives_marks; [|exact He]. by left. }
    apply (anti_symm (⊆)); [done|].
    apply union_subseteq. split; [|done]. by apply singleton_subseteq_l.
Qed.

Lemma header_inclusion_overrides_witness :
  exists st',
    include_file charybdis_layers_file
      (PPState {["LOWER" := [PPNumber "1"]]} ∅) = Ok st'
    /\ macros st' = header_macros ∪ macros (PPState {["LOWER" := [PPNumber "1"]]} ∅)
    /\ once st' = {[ path charybdis_layers_file ]}
                  ∪ once (PPState {["LOWER" := [PPNumber "1"]]} ∅).
Proof.
  apply (header_inclusion_overrides (PPState {["LOWER" := [PPNumber "1"]]} ∅)).
  apply not_elem_of_empty.
Defined.



(** At that state the one warning is for [LOWER], and [LOWER] is 2
    afterwards. *)
Example lower_redefined_with_a_warning :
  include_warnings charybdis_layers_file
    (PPState {["LOWER" := [PPNumber "1"]]} ∅) = ["LOWER"]
  /\ macros_of (include_file charybdis_layers_file
                  (PPState {["LOWER" := [PPNumber "1"]]} ∅)) !! "LOWER"
     = Some [PPNumber "2"].
Proof. split; vm_compute; reflexivity. Qed.

(** X4.  Wherever a unit includes the header again after a first inclusion,
    nothing happens: the later inclusion leaves the whole state as it is,
    whatever the unit did in between - a name removed by [#undef] in between
    is not defined again. *)
Theorem header_later_inclusion_is_noop
    (self : string) (before between : list tu_item) (st0 st : tu_state) :
  exec_items self (before ++ Include charybdis_layers_file :: between) st0 = Ok st ->
  exec_items self
    ((before ++ Include charybdis_layers_file :: between)
       ++ [Include charybdis_layers_file]) st0 = Ok st.
Proof.
  intros He. rewrite exec_items_app, He. simpl.
  rewrite exec_items_app in He. apply bind_Ok in He as (s1 & _ & He).
  cbn [exec_items] in He. apply bind_Ok in He as (s2 & H2 & H3).
  cbn [exec_item] in H2. apply bind_Ok in H2 as (p & Hp & H2).
  inversion H2; subst s2; clear H2.
  apply include_file_marks in Hp; [|by left].
  apply exec_items_once in H3. simpl in H3.
  rewrite include_file_marked by (by apply H3). simpl. by destruct st.
Qed.

Lemma header_later_inclusion_is_noop_witness :
  exists st,
    exec_items "charybdis.keymap"
      (([] ++ Include charybdis_layers_file :: [Line (Undef "RAISE")])
         ++ [Include charybdis_layers_file]) tu_init = Ok st
    /\ macros (pp st) !! "RAISE" = None.
Proof.
  eexists. split.
  - apply (header_later_inclusion_is_noop "charybdis.keymap"
             [] [Line (Undef "RAISE")] tu_init).
    vm_compute. reflexivity.
  - vm_compute. reflexivity.
Defined.

(** X5.  After a successful inclusion of the header into a state where it
    was not yet marked - whatever other macros that state holds - each of
    the seven names, used as an initialiser, gives its index. *)
Theorem layer_names_usable_after_inclusion
    (st st' : pp_state) (n : string) (v : Z) :
  path charybdis_layers_file ∉ once st ->
  include_file charybdis_layers_file st = Ok st' ->
  layer_index n = Some v ->
  macro_expand (macros st') [PPIdent n] = macro_expand header_macros [PPIdent n]
  /\ eval_initializer (macros st') [PPIdent n] = Ok v.
Proof.
  intros Hnew He Hv. unfold include_file in He.
  rewrite decide_False in He by done.
  change (lines charybdis_layers_file) with charybdis_layers_h in He.
  apply layer_index_Some in Hv as (s & Hd & Hs).
  pose proof (header_defines _ _ _ _ _ Hd He) as Hn.
  pose proof Hd as Hh. apply header_macros_lookup in Hh.
  destruct (header_definitions _ _ Hd) as (_ & Hc & s' & v' & Heq & _ & Hv' & Hr).
  inversion Heq; subst s'. assert (v' = v) as -> by congruence.
  unfold eval_initializer.
  rewrite (macro_expand_name _ _ _ Hn Hc), (macro_expand_name _ _ _ Hh Hc).
  split; [done|]. rewrite Hs. rewrite int_of_Z_small; [done|lia].
Qed.

Lemma layer_names_usable_after_inclusion_witness :
  exists st',
    include_file charybdis_layers_file
      (PPState {["KC_A" := [PPNumber "4"]]} ∅) = Ok st'
    /\ macro_expand (macros st') [PPIdent "SYMBOLS"]
       = macro_expand header_macros [PPIdent "SYMBOLS"]
    /\ eval_initializer (macros st') [PPIdent "SYMBOLS"] = Ok 4.
Proof.
  eexists. split.
  - vm_compute. reflexivity.
  - apply (layer_names_usable_after_inclusion
             (PPState {["KC_A" := [PPNumber "4"]]} ∅) _ "SYMBOLS" 4).
    + apply not_elem_of_empty.
    + vm_compute. reflexivity.
    + vm_compute. reflexivity.
Defined.
